(** * easy-cancelable-promise: the shared marker, the try/catch wrappers,
      the cancelable-future state machine and the group scheduler.

    The development follows the TypeScript sources:

    - [src/_shared/index.ts]          ([promise_identifier], [isCancelablePromise])
    - [src/utils/tryCatch/tryCatch.ts] ([tryCatch], [tryCatchPromise])

    and, for the parts of the package of which only the type declarations
    are available ([CancelablePromise.d.ts], [CancelablePromise.utils.d.ts]),
    the design document. *)

From stdpp Require Import base option list gmap strings.
From Stdlib Require Import ZArith Lia.

Local Open Scope string_scope.
Local Open Scope list_scope.
Local Open Scope nat_scope.

(** ** A small model of the JavaScript values the sources manipulate *)

Module JS.

(** Property keys are strings or symbols.  A symbol is identified by the
    order in which the realm created it: [Symbol(d)] never returns the
    same symbol twice, whatever the description [d]. *)
Definition symbol := nat.

Inductive key :=
| KString (s : string)
| KSymbol (id : symbol).

#[global] Instance key_eq_dec : EqDecision key.
Proof. solve_decision. Defined.

Definition key_code (k : key) : string + nat :=
  match k with KString s => inl s | KSymbol n => inr n end.

Definition key_decode (c : string + nat) : key :=
  match c with inl s => KString s | inr n => KSymbol n end.

#[global] Instance key_countable : Countable key.
Proof. apply (inj_countable' key_code key_decode). by intros []. Defined.

(** Values: the primitives, and references to heap objects.  Numbers are
    restricted to integers. *)
Inductive value :=
| VUndefined
| VNull
| VBoolean (b : bool)
| VNumber (n : Z)
| VString (s : string)
| VRef (addr : nat).

#[global] Instance value_eq_dec : EqDecision value.
Proof. solve_decision. Defined.

(** The outcome of evaluating a call: a normal return or a throw. *)
Inductive completion (A : Type) :=
| Return (a : A)
| Throw (e : value).
Arguments Return {A} a.
Arguments Throw {A} e.

(** What an object is, besides its properties.  A function object names
    its body by an index in the table of function bodies of the program;
    a promise object is anything that has the [then]/[catch] methods of
    [Promise.prototype]. *)
Inductive object_kind :=
| OrdinaryObject
| ErrorObject (name message : string)
| FunctionObject (body : nat)
| PromiseObject.

(** The property map folds in what the object inherits. *)
Record object := Object {
  kind : object_kind;
  properties : gmap key value
}.

#[global] Instance object_kind_eq_dec : EqDecision object_kind.
Proof. solve_decision. Defined.

(** The console: which method was called, with which argument. *)
Inductive console_method := console_error | console_warn | console_log.

(** The mutable world: the realm's symbol counter, the heap, and what has
    been written to the console (oldest first). *)
Record world := World {
  next_symbol : nat;
  heap : gmap nat object;
  console : list (console_method * value)
}.

Definition empty_world : world := World 0 ∅ [].

(** [Symbol(description)]: a new symbol each time. *)
Definition Symbol (description : string) (w : world) : symbol * world :=
  (next_symbol w,
   World (S (next_symbol w)) (heap w) (console w)).

(** Allocation of a new object, at an address the heap does not use. *)
Definition alloc (o : object) (w : world) : value * world :=
  let a := fresh (dom (heap w)) in
  (VRef a, World (next_symbol w) (<[a := o]> (heap w)) (console w)).

(** [console[m](v)] *)
Definition console_call (m : console_method) (v : value) (w : world) : world :=
  World (next_symbol w) (heap w) (console w ++ [(m, v)]).

(** [o[k]] for a value that is neither [null] nor [undefined].  The
    prototypes of the primitive wrappers carry none of the keys the
    sources read (a module-private symbol and ["status"]). *)
Definition get (w : world) (v : value) (k : key) : value :=
  match v with
  | VRef a =>
      match heap w !! a with
      | Some o => default VUndefined (properties o !! k)
      | None => VUndefined
      end
  | _ => VUndefined
  end.

(** [v?.[k]]: [undefined] when [v] is [null] or [undefined]. *)
Definition optional_get (w : world) (v : value) (k : key) : value :=
  match v with
  | VUndefined | VNull => VUndefined
  | _ => get w v k
  end.

(** [!!v] *)
Definition ToBoolean (v : value) : bool :=
  match v with
  | VUndefined | VNull => false
  | VBoolean b => b
  | VNumber n => negb (n =? 0)%Z
  | VString s => negb (String.eqb s EmptyString)
  | VRef _ => true
  end.

(** [a === b] *)
Definition strict_equal (a b : value) : bool := bool_decide (a = b).

(** [a ?? b] *)
Definition nullish (a b : value) : value :=
  match a with
  | VUndefined | VNull => b
  | _ => a
  end.

(** The default of a destructuring pattern, [{ p: x = d }]: [d] replaces
    [undefined] only. *)
Definition or_default (a d : value) : value :=
  match a with
  | VUndefined => d
  | _ => a
  end.

Definition kind_of (w : world) (v : value) : option object_kind :=
  match v with
  | VRef a => kind <$> heap w !! a
  | _ => None
  end.

(** [new TypeError(message)], as the engine raises it. *)
Definition TypeError (message : string) (w : world) : value * world :=
  alloc (Object (ErrorObject "TypeError" message) ∅) w.

(** [Error(message)] *)
Definition Error (message : string) (w : world) : value * world :=
  alloc (Object (ErrorObject "Error" message) ∅) w.

Section Calls.

(** The bodies of the nullary functions of the program: running body
    [i] in a world gives a completion and the world it leaves. *)
Variable code : nat -> world -> completion value * world.

(** [f()] *)
Definition Call (f : value) (w : world) : completion value * world :=
  match kind_of w f with
  | Some (FunctionObject body) => code body w
  | _ =>
      let '(e, w') := TypeError "is not a function" w in
      (Throw e, w')
  end.

End Calls.

End JS.

Import JS.

(** ** [src/_shared/index.ts] *)

Module Shared.

(** What one evaluation of the module exports.  [isCancelablePromise]
    closes over the symbol, so the record keeps the symbol only. *)
Record exports := Exports {
  promise_identifier : symbol
}.

(** Evaluating the module:
    [export const promise_identifier = Symbol('promise_identifier')]. *)
Definition load (w : world) : exports * world :=
  let '(s, w') := Symbol "promise_identifier" w in
  (Exports s, w').

(** [return !!source?.[promise_identifier];] *)
Definition isCancelablePromise (m : exports) (w : world) (source : value) : bool :=
  ToBoolean (optional_get w source (KSymbol (promise_identifier m))).

(** Whether the value is an object that has the marker property of this
    copy of the module. *)
Definition has_marker (m : exports) (w : world) (x : value) : bool :=
  match x with
  | VRef a =>
      match heap w !! a with
      | Some o => bool_decide (is_Some (properties o !! KSymbol (promise_identifier m)))
      | None => false
      end
  | _ => false
  end.

End Shared.

Import Shared.

(** ** Instances of [CancelablePromise], as objects of the heap *)

Module Instance.

(** [TPromiseStatus] of [CancelablePromise.d.ts] *)
Inductive TPromiseStatus := canceled | pending | resolved | rejected.

#[global] Instance TPromiseStatus_eq_dec : EqDecision TPromiseStatus.
Proof. solve_decision. Defined.

Definition status_string (s : TPromiseStatus) : string :=
  match s with
  | canceled => "canceled"
  | pending => "pending"
  | resolved => "resolved"
  | rejected => "rejected"
  end.

(** Modelled from the spec: the constructor of [CancelablePromise], whose
    body is not among the sources (only its declaration is).  Every
    instance is a promise object to which the marker of the copy of the
    library that creates it is attached, and it has the public [status]
    field of the declaration. *)
Definition instance (m : exports) (s : TPromiseStatus) : object :=
  Object PromiseObject
         (<[KSymbol (promise_identifier m) := VBoolean true]>
            {[KString "status" := VString (status_string s)]}).

(** Modelled from the spec: what the constructor and the statics of
    [CancelablePromise] (bodies not among the sources) leave in the heap: a
    new instance, in the status the static gives it. *)
Definition construct (m : exports) (s : TPromiseStatus) (w : world) : value * world :=
  alloc (instance m s) w.

(** A native promise: a promise object without the marker. *)
Definition native_promise : object := Object PromiseObject ∅.

(** Modelled from the spec: [isPromise], declared in
    [CancelablePromise.utils.d.ts]. *)
Definition isPromise (w : world) (v : value) : bool :=
  bool_decide (kind_of w v = Some PromiseObject).

(** Modelled from the spec: [toCancelablePromise], declared in
    [CancelablePromise.utils.d.ts].  A source that carries the marker is
    returned unchanged; a native promise is wrapped in a new, pending
    instance; any other value gives an instance that is already
    resolved. *)
Definition toCancelablePromise (m : exports) (source : value) (w : world) : value * world :=
  if isCancelablePromise m w source then (source, w)
  else if isPromise w source then construct m pending w
  else construct m resolved w.

End Instance.

Import Instance.

(** ** [src/utils/tryCatch/tryCatch.ts] *)

(** Modelled from the spec: the values of [exceptionHandlingType]
    ([tryCatch.types.ts] is not among the sources):
    ['error' | 'warn' | 'log' | 'ignore']. *)
Inductive TExceptionHandlingType :=
| handling_error | handling_warn | handling_log | handling_ignore.

#[global] Instance TExceptionHandlingType_eq_dec : EqDecision TExceptionHandlingType.
Proof. solve_decision. Defined.

(** [console[exceptionHandlingType](error)].  The console has no method
    named [ignore]; both call sites test for it before the call. *)
Definition console_at (t : TExceptionHandlingType) (error : value) (w : world) : world :=
  match t with
  | handling_error => console_call console_error error w
  | handling_warn => console_call console_warn error w
  | handling_log => console_call console_log error w
  | handling_ignore => w
  end.

Module TryCatch.

(** The properties of the configuration that [tryCatch] reads.  An absent
    property reads as [undefined]: [VUndefined] for [defaultResult], [None]
    for [exceptionHandlingType]. *)
Record TTryCatchCallbackConfig := {
  defaultResult : value;
  exceptionHandlingType : option TExceptionHandlingType
}.

Record TTryCatchResult := {
  error : value;
  result : value
}.

(** [config = {}] *)
Definition empty_config : TTryCatchCallbackConfig :=
  {| defaultResult := VUndefined; exceptionHandlingType := None |}.

Section WithCode.

Variable code : nat -> world -> completion value * world.

Definition tryCatch (callback : value) (config : option TTryCatchCallbackConfig)
    (w : world) : TTryCatchResult * world :=
  let config := default empty_config config in
  let errorResult := or_default (defaultResult config) VNull in
  let exceptionHandlingType := default handling_error (exceptionHandlingType config) in
  match Call code callback w with
  | (Return result, w1) =>
      ({| error := VNull; result := result |}, w1)
  | (Throw error, w1) =>
      let w2 :=
        if bool_decide (exceptionHandlingType <> handling_ignore)
        then console_at exceptionHandlingType error w1
        else w1 in
      ({| error := error; result := errorResult |}, w2)
  end.

End WithCode.

End TryCatch.

Module TryCatchPromise.

(** The properties of the configuration that [tryCatchPromise] reads. *)
Record TTryCatchCallbackPromiseConfig := {
  defaultResult : value;
  exceptionHandlingType : option TExceptionHandlingType;
  ignoreCancel : option bool
}.

(** The record the returned promise resolves with. *)
Record TTryCatchPromiseRecord := {
  error : value;
  result : value;
  promise : value
}.

(** The promise that [tryCatchPromise] returns: [Promise.reject(reason)],
    [Promise.resolve(record)], or [promise.then(onfulfilled).catch(onrejected)]
    with the two handlers the source passes.  [onrejected] runs in the
    world of the time the awaited promise rejects: it reads
    [promise.status] there and may write to the console. *)
Inductive TTryCatchPromiseResult :=
| PromiseReject (reason : value)
| PromiseResolve (r : TTryCatchPromiseRecord)
| ThenCatch (promise : value)
            (onfulfilled : value -> TTryCatchPromiseRecord)
            (onrejected : value -> world -> TTryCatchPromiseRecord * world).

(** The handlers [onfulfilled] and [onrejected] return records that carry
    [p] in the [promise] field; the first has no error and the value as
    result, the second the error and [errorResult]. *)
Definition records_of (p : value) (errorResult : value)
    (onfulfilled : value -> TTryCatchPromiseRecord)
    (onrejected : value -> world -> TTryCatchPromiseRecord * world) : Prop :=
  (forall v, onfulfilled v = {| error := VNull; result := v; promise := p |}) /\
  (forall e w, fst (onrejected e w) = {| error := e; result := errorResult; promise := p |}).

(** [config || {}] *)
Definition empty_config : TTryCatchCallbackPromiseConfig :=
  {| defaultResult := VUndefined; exceptionHandlingType := None; ignoreCancel := None |}.

Definition usage_message : string :=
  "tryCatchPromise: callback parameter must return a value () => promise".

(** The closure [logger]; [promise] is the value of the variable of that
    name when the closure runs.  The first component returned is the new
    value of the variable [error], which the closure assigns. *)
Definition logger (exceptionHandlingType : TExceptionHandlingType) (ignoreCancel : bool)
    (promise : value) (_error : value) (w : world) : value * world :=
  let error := _error in
  if bool_decide (exceptionHandlingType = handling_ignore) then (error, w)
  else
    let isCancel :=
      strict_equal (optional_get w promise (KString "status")) (VString "canceled") in
    if isCancel && ignoreCancel then (error, w)
    else (error, console_at exceptionHandlingType error w).

(** [promise.then(onfulfilled).catch(onrejected)]: a value without the
    methods of a promise makes the call throw. *)
Definition then_catch (promise : value)
    (onfulfilled : value -> TTryCatchPromiseRecord)
    (onrejected : value -> world -> TTryCatchPromiseRecord * world)
    (w : world) : completion TTryCatchPromiseResult * world :=
  match kind_of w promise with
  | Some PromiseObject => (Return (ThenCatch promise onfulfilled onrejected), w)
  | _ =>
      let '(e, w') := TypeError "promise.then is not a function" w in
      (Throw e, w')
  end.

Section WithCode.

Variable code : nat -> world -> completion value * world.

(** The copy of [_shared] that [tryCatch.ts] and [CancelablePromise]
    import. *)
Variable m : exports.

Definition tryCatchPromise (source : value)
    (config : option TTryCatchCallbackPromiseConfig) (w : world)
    : completion TTryCatchPromiseResult * world :=
  let config := default empty_config config in
  let errorResult := or_default (defaultResult config) VNull in
  let exceptionHandlingType := default handling_error (exceptionHandlingType config) in
  let ignoreCancel := default true (ignoreCancel config) in
  let logger := logger exceptionHandlingType ignoreCancel in
  let onfulfilled promise := fun result =>
    {| error := VNull; result := result; promise := promise |} in
  let onrejected promise := fun error w =>
    let '(_, w') := logger promise error w in
    ({| error := error; result := errorResult; promise := promise |}, w') in
  let catch_block promise _error w :=
    let '(error, w') := logger promise _error w in
    (Return (PromiseResolve
               {| error := error; result := errorResult; promise := promise |}), w') in
  if isCancelablePromise m w source then
    let promise := source in
    match then_catch promise (onfulfilled promise) (onrejected promise) w with
    | (Throw _error, w1) => catch_block promise _error w1
    | returned => returned
    end
  else
    match Call code source w with
    | (Throw _error, w1) => catch_block VNull _error w1
    | (Return callbackResult, w1) =>
        if strict_equal callbackResult VUndefined then
          let '(e, w2) := Error usage_message w1 in
          (Return (PromiseReject e), w2)
        else
          let '(promise, w2) :=
            if isCancelablePromise m w1 callbackResult then (callbackResult, w1)
            else toCancelablePromise m callbackResult w1 in
          match then_catch promise (onfulfilled promise) (onrejected promise) w2 with
          | (Throw _error, w3) => catch_block promise _error w3
          | returned => returned
          end
    end.

End WithCode.

End TryCatchPromise.


(** ** The cancelable future and its derivation chains

    The class [CancelablePromise] is part of the package, but of its
    source only the declarations are available.  Its state machine is
    therefore taken from the design document (sections 3, 4.1, 4.2 and 5). *)

Module Chain.

(** The underlying awaitable, once settled. *)
Inductive settled :=
| Fulfilled (v : value)
| Rejected (reason : value).

(** A cancel callback is known by its identity; what it does when it runs
    is outside this model, which records that it ran. *)
Definition callback := nat.

(** Modelled from the spec: the fields of a Cancelable Future.  The
    callback sets shared by a whole chain are one chain descriptor, to
    which every member refers ([chain]); [parent] is the future a derived
    future was made from. *)
Record future := Future {
  status : TPromiseStatus;
  settlement : option settled;
  ownCancelCallbacks : list callback;
  chain : nat;
  parent : option nat
}.

(** One invocation of a cancel callback: the future on which it was
    registered, the callback, the reason it received. *)
Definition invocation : Type := nat * callback * value.

(** The futures created so far (a future is known by its position), the
    next free chain descriptor, and the invocations of cancel callbacks so
    far (oldest first). *)
Record state := State {
  futures : list future;
  next_chain : nat;
  invocations : list invocation
}.

Definition init : state := State [] 0 [].

Definition status_of (s : state) (f : nat) : option TPromiseStatus :=
  status <$> futures s !! f.

Definition settlement_of (s : state) (f : nat) : option settled :=
  futures s !! f ≫= settlement.

(** Modelled from the spec: the constructor creates a pending future with
    a chain of its own. *)
Definition new (s : state) : state :=
  State (futures s ++ [Future pending None [] (next_chain s) None])
        (S (next_chain s)) (invocations s).

(** Modelled from the spec: [then], [catch] and [finally] produce a new
    pending future that is linked into the sharing set of the future they
    are called on. *)
Definition derive (p : nat) (s : state) : state :=
  match futures s !! p with
  | Some fp =>
      State (futures s ++ [Future pending None [] (chain fp) (Some p)])
            (next_chain s) (invocations s)
  | None => s
  end.

(** Modelled from the spec: settling is a no-op on a future that has
    settled ([resolve] and [reject] of the class, bodies not among the
    sources). *)
Definition settle_with (st : TPromiseStatus) (o : settled) (fu : future) : future :=
  if bool_decide (status fu = pending)
  then Future st (Some o) (ownCancelCallbacks fu) (chain fu) (parent fu)
  else fu.

(** Modelled from the spec: [resolve(value)] is a no-op if the future has
    settled; otherwise the status becomes [resolved] and the underlying
    awaitable is settled. *)
Definition resolve (f : nat) (v : value) (s : state) : state :=
  State (alter (settle_with resolved (Fulfilled v)) f (futures s))
        (next_chain s) (invocations s).

(** Modelled from the spec: [reject(reason)], symmetric, status [rejected]. *)
Definition reject (f : nat) (reason : value) (s : state) : state :=
  State (alter (settle_with rejected (Rejected reason)) f (futures s))
        (next_chain s) (invocations s).

(** Modelled from the spec: [onCancel(callback)] registers the callback on
    the future's own list; the list is a set kept in registration order. *)
Definition subscribe (cb : callback) (fu : future) : future :=
  Future (status fu) (settlement fu)
         (if bool_decide (cb ∈ ownCancelCallbacks fu)
          then ownCancelCallbacks fu
          else ownCancelCallbacks fu ++ [cb])
         (chain fu) (parent fu).

Definition onCancel (f : nat) (cb : callback) (s : state) : state :=
  State (alter (subscribe cb) f (futures s)) (next_chain s) (invocations s).

(** Modelled from the spec: the unsubscribe function that [onCancel]
    returns. *)
Definition unsubscribe (f : nat) (cb : callback) (s : state) : state :=
  State (alter (fun fu =>
                  Future (status fu) (settlement fu)
                         (filter (fun c => c <> cb) (ownCancelCallbacks fu))
                         (chain fu) (parent fu)) f (futures s))
        (next_chain s) (invocations s).

(** Modelled from the spec: the members of chain [c]: the futures that
    refer to that chain descriptor. *)
Definition in_chain (c : nat) (fu : future) : bool :=
  bool_decide (chain fu = c).

(** Modelled from the spec: what a cancellation of chain [c] does to a
    future ([cancel] of the class, body not among the sources).  The own
    callbacks of every member are cleared, once invoked.  A member that is
    pending gets the status [canceled] and its underlying awaitable is
    rejected with the reason; the design document asks that a settled
    status never changes again, so a member that has settled keeps its
    status and its settlement. *)
Definition cancel_member (c : nat) (reason : value) (fu : future) : future :=
  if in_chain c fu then
    if bool_decide (status fu = pending)
    then Future canceled (Some (Rejected reason)) [] (chain fu) (parent fu)
    else Future (status fu) (settlement fu) [] (chain fu) (parent fu)
  else fu.

(** Modelled from the spec: the invocations a cancellation makes: the own
    callbacks of every member of the chain, in registration order within a
    member, the members in linkage order; [i] is the position of the first
    future of the list. *)
Fixpoint notify (c : nat) (reason : value) (i : nat) (l : list future) : list invocation :=
  match l with
  | [] => []
  | fu :: l' =>
      (if in_chain c fu
       then (fun cb => (i, cb, reason)) <$> ownCancelCallbacks fu
       else [])
      ++ notify c reason (S i) l'
  end.

(** Modelled from the spec: [cancel(reason)] is a no-op if the future has
    settled; otherwise it cancels the whole chain. *)
Definition cancel (f : nat) (reason : value) (s : state) : state :=
  match futures s !! f with
  | Some fu =>
      if bool_decide (status fu = pending)
      then State (cancel_member (chain fu) reason <$> futures s)
                 (next_chain s)
                 (invocations s ++ notify (chain fu) reason 0 (futures s))
      else s
  | None => s
  end.

(** Modelled from the spec: a [catch] handler attached to a future is
    called with the reason its underlying awaitable is rejected with. *)
Definition catch_receives (s : state) (f : nat) : option value :=
  match settlement_of s f with
  | Some (Rejected reason) => Some reason
  | _ => None
  end.

(** What a program does with futures. *)
Inductive op :=
| New
| Derive (p : nat)
| Resolve (f : nat) (v : value)
| Reject (f : nat) (reason : value)
| Cancel (f : nat) (reason : value)
| OnCancel (f : nat) (cb : callback)
| Unsubscribe (f : nat) (cb : callback).

Definition step (s : state) (o : op) : state :=
  match o with
  | New => new s
  | Derive p => derive p s
  | Resolve f v => resolve f v s
  | Reject f reason => reject f reason s
  | Cancel f reason => cancel f reason s
  | OnCancel f cb => onCancel f cb s
  | Unsubscribe f cb => unsubscribe f cb s
  end.

Definition run (ops : list op) (s : state) : state := foldl step s ops.

(** What the callback given to the constructor may do, synchronously, with
    the controls it receives. *)
Inductive control :=
| do_resolve (v : value)
| do_reject (reason : value)
| do_cancel (reason : value)
| do_onCancel (cb : callback).

Definition control_op (f : nat) (c : control) : op :=
  match c with
  | do_resolve v => Resolve f v
  | do_reject reason => Reject f reason
  | do_cancel reason => Cancel f reason
  | do_onCancel cb => OnCancel f cb
  end.

(** Modelled from the spec: [new CancelablePromise(callback)] creates the
    future and runs the callback synchronously on its controls; the result
    is the new future and the state. *)
Definition construct (script : list control) (s : state) : nat * state :=
  let f := length (futures s) in
  (f, run (control_op f <$> script) (new s)).




End Chain.

(** ** The bounded-concurrency group scheduler

    [groupAsCancelablePromise] is declared in [CancelablePromise.utils.d.ts];
    its body is not among the sources.  The scheduler below is the
    algorithm of section 4.7 of the design document. *)

Module Group.

(** A source is a thunk or a future; [settles_with] is the settlement
    result of the member future built from it. *)
Record source := Source {
  is_thunk : bool;
  settles_with : value
}.

(** [TCancelablePromiseGroupConfig]; an absent property is [None].  The
    three hooks are recorded when they are called. *)
Record TCancelablePromiseGroupConfig := {
  maxConcurrent : option nat;
  executeInOrder : option bool
}.

Inductive hook :=
| beforeEachCallback
| afterEachCallback (result : value)
| onQueueEmptyCallback (results : option (list value)).

Inductive group_status :=
| group_pending
| group_resolved (results : list value)
| group_canceled.

(** Modelled from the spec: the state of one invocation of the scheduler:
    the cursor over the sources, the members in flight (by original
    index), the results array, the status of the group future, the hooks
    called so far. *)
Record state := State {
  cursor : nat;
  active : list nat;
  results : list value;
  status : group_status;
  hooks : list hook
}.

Section Scheduler.

Variable sources : list source.
Variable config : TCancelablePromiseGroupConfig.

(** [maxConcurrent] defaults to 8; [executeInOrder] (default [false])
    serializes the dispatch. *)
Definition limit : nat :=
  if default false (executeInOrder config) then 1
  else default 8 (maxConcurrent config).

Definition init : state :=
  State 0 [] (replicate (length sources) VUndefined) group_pending [].

(** Dispatch of the next source: the hook, then the member is built and
    is in flight. *)
Definition dispatch (st : state) : state :=
  State (S (cursor st)) (active st ++ [cursor st]) (results st) (status st)
        (hooks st ++ [beforeEachCallback]).

(** While the active count is below the limit and unstarted sources
    remain, dispatch the next one.  [k] bounds the number of rounds; the
    unstarted sources are at most that many. *)
Fixpoint fill (k : nat) (st : state) : state :=
  match k with
  | 0 => st
  | S k' =>
      if (length (active st) <? limit)%nat && (cursor st <? length sources)%nat
      then fill k' (dispatch st)
      else st
  end.

(** When every source has settled: the hook, and the group future
    resolves with the results. *)
Definition finish (st : state) : state :=
  if (cursor st =? length sources)%nat && bool_decide (active st = [])
  then State (cursor st) (active st) (results st) (group_resolved (results st))
             (hooks st ++ [onQueueEmptyCallback (Some (results st))])
  else st.

(** Modelled from the spec: the call of [groupAsCancelablePromise]. *)
Definition groupAsCancelablePromise : state :=
  finish (fill (length sources) init).

(** Modelled from the spec: the member built from source [i] settles: it
    leaves the active set, its result is recorded at its original index,
    the hook is called, and the next sources are dispatched. *)
Definition on_settled (i : nat) (st : state) : state :=
  match status st, sources !! i with
  | group_pending, Some src =>
      if bool_decide (i ∈ active st) then
        let result := settles_with src in
        let st1 :=
          State (cursor st) (filter (fun j => j <> i) (active st))
                (<[i := result]> (results st)) (status st)
                (hooks st ++ [afterEachCallback result]) in
        finish (fill (length sources - cursor st1) st1)
      else st
  | _, _ => st
  end.

(** Modelled from the spec: canceling the group future. *)
Definition cancel (st : state) : state :=
  match status st with
  | group_pending =>
      State (cursor st) [] (results st) group_canceled
            (hooks st ++ [onQueueEmptyCallback None])
  | _ => st
  end.

(** What happens to a group after the call: a member settles, or the
    group is canceled.  The order of the [Settled] events is the
    completion order of the members. *)
Inductive event :=
| Settled (i : nat)
| CancelGroup.

Definition react (st : state) (e : event) : state :=
  match e with
  | Settled i => on_settled i st
  | CancelGroup => cancel st
  end.

Definition run (events : list event) : state :=
  foldl react groupAsCancelablePromise events.

(** What holds of the scheduler at every moment: the results array has
    one slot per source; the cursor is within the sources; the members in
    flight were dispatched; unless the group was canceled, the slot of
    every member that was dispatched and is no longer in flight holds the
    settlement result of its source; and a resolved group has dispatched
    everything, has nothing in flight, and resolved with the array. *)
Definition invariant (st : state) : Prop :=
  length (results st) = length sources /\
  cursor st <= length sources /\
  (forall i, i ∈ active st -> i < cursor st) /\
  (status st <> group_canceled ->
   forall i src, i < cursor st -> i ∉ active st -> sources !! i = Some src ->
                 results st !! i = Some (settles_with src)) /\
  (forall rs, status st = group_resolved rs ->
              rs = results st /\ cursor st = length sources /\ active st = []).

(** The members that have not settled yet: those in flight and those not
    dispatched. *)
Definition unsettled (st : state) : nat :=
  (length sources - cursor st) + length (active st).

End Scheduler.

End Group.

(** * Properties *)

(** ** The marker and [isCancelablePromise] *)

Section SharedFacts.

Lemma alloc_heap o w :
  heap (snd (alloc o w)) !! fresh (dom (heap w)) = Some o.
Proof. cbn. apply lookup_insert_eq. Qed.

Lemma alloc_kind o w : kind_of (snd (alloc o w)) (fst (alloc o w)) = Some (kind o).
Proof. cbn. by rewrite lookup_insert_eq. Qed.

Lemma alloc_get o w k :
  get (snd (alloc o w)) (fst (alloc o w)) k = default VUndefined (properties o !! k).
Proof. cbn. by rewrite lookup_insert_eq. Qed.

Lemma alloc_preserves o w a x :
  heap w !! a = Some x -> heap (snd (alloc o w)) !! a = Some x.
Proof.
  intros Ha. cbn. rewrite lookup_insert_ne; [done|].
  intros <-. apply (is_fresh (dom (heap w))), elem_of_dom. eauto.
Qed.

Lemma instance_marker m s :
  properties (instance m s) !! KSymbol (promise_identifier m) = Some (VBoolean true).
Proof. apply lookup_insert_eq. Qed.

Lemma instance_foreign_marker m m' s :
  promise_identifier m' <> promise_identifier m ->
  properties (instance m' s) !! KSymbol (promise_identifier m) = None.
Proof.
  intros Hne. unfold instance; cbn.
  rewrite lookup_insert_ne by congruence.
  by rewrite lookup_singleton_ne.
Qed.

Lemma isCancelablePromise_ref m w a :
  isCancelablePromise m w (VRef a) =
  match heap w !! a with
  | Some o => ToBoolean (default VUndefined (properties o !! KSymbol (promise_identifier m)))
  | None => false
  end.
Proof. unfold isCancelablePromise; cbn. by destruct (heap w !! a). Qed.

Lemma construct_isCancelablePromise m s w :
  isCancelablePromise m (snd (construct m s w)) (fst (construct m s w)) = true.
Proof.
  unfold construct, alloc; cbn [fst snd].
  rewrite isCancelablePromise_ref; cbn [heap].
  by rewrite lookup_insert_eq, instance_marker.
Qed.

Lemma construct_kind m s w :
  kind_of (snd (construct m s w)) (fst (construct m s w)) = Some PromiseObject.
Proof. unfold construct. by rewrite alloc_kind. Qed.

(** C9: [isCancelablePromise] is total at the public interface: for
    [null], for [undefined], and for any other value without the marker
    property, the optional chaining gives [undefined] (no throw), and the
    double negation turns it into [false]. *)
Theorem isCancelablePromise_total m w :
  isCancelablePromise m w VNull = false /\
  isCancelablePromise m w VUndefined = false /\
  (forall x, has_marker m w x = false -> isCancelablePromise m w x = false) /\
  (forall x, has_marker m w x = false ->
             optional_get w x (KSymbol (promise_identifier m)) = VUndefined).
Proof.
  assert (Hget : forall x, has_marker m w x = false ->
             optional_get w x (KSymbol (promise_identifier m)) = VUndefined).
  { intros [| | | | |a]; cbn; try done.
    destruct (heap w !! a) as [o|]; [|done].
    destruct (properties o !! _) eqn:E; [|done].
    intros H. apply bool_decide_eq_false in H. destruct H. eauto. }
  repeat split; try done.
  intros x Hx. unfold isCancelablePromise. by rewrite Hget.
Qed.

(** The theorem at a number and at an object that has other properties
    only. *)
Lemma isCancelablePromise_total_witness :
  let m := Exports 0 in
  let w := snd (alloc (Object OrdinaryObject {[KString "status" := VString "canceled"]})
                      empty_world) in
  isCancelablePromise m w (VNumber 7) = false /\
  isCancelablePromise m w (VRef 0) = false.
Proof.
  intros m w. split.
  - apply (isCancelablePromise_total m w). reflexivity.
  - apply (isCancelablePromise_total m w). vm_compute. reflexivity.
Defined.

(** C5, as the code has it: [isCancelablePromise(x)] is true exactly when
    [x] is an object whose property at the symbol of this evaluation of
    the module is truthy.  It is true for every instance this copy of the
    library creates and false for a native promise; the symbol is created
    by [Symbol], not looked up in a registry shared by the process, so two
    evaluations of the module have different symbols and an instance
    created by another copy is not recognized. *)
Theorem isCancelablePromise_marker_of_this_copy m w :
  (forall x, isCancelablePromise m w x = true <->
             exists a o v, x = VRef a /\ heap w !! a = Some o /\
                           properties o !! KSymbol (promise_identifier m) = Some v /\
                           ToBoolean v = true) /\
  (forall s, isCancelablePromise m (snd (construct m s w)) (fst (construct m s w)) = true) /\
  isCancelablePromise m (snd (alloc native_promise w)) (fst (alloc native_promise w)) = false /\
  (forall m' s, promise_identifier m' <> promise_identifier m ->
     isCancelablePromise m (snd (construct m' s w)) (fst (construct m' s w)) = false) /\
  promise_identifier (fst (load (snd (load w)))) <> promise_identifier (fst (load w)).
Proof.
  repeat split.
  - destruct x as [| | | | |a]; try done.
    rewrite isCancelablePromise_ref.
    destruct (heap w !! a) as [o|] eqn:Ho; [|done].
    destruct (properties o !! _) as [v|] eqn:Hv; [|done]. cbn. eauto 10.
  - intros (a & o & v & -> & Ho & Hv & Ht).
    by rewrite isCancelablePromise_ref, Ho, Hv.
  - intros s. apply construct_isCancelablePromise.
  - unfold alloc; cbn [fst snd].
    rewrite isCancelablePromise_ref; cbn [heap].
    by rewrite lookup_insert_eq.
  - intros m' s Hne. unfold construct, alloc; cbn [fst snd].
    rewrite isCancelablePromise_ref; cbn [heap].
    by rewrite lookup_insert_eq, instance_foreign_marker.
  - cbn. lia.
Qed.

(** The theorem at two copies of the library loaded in one realm. *)
Lemma isCancelablePromise_marker_of_this_copy_witness :
  let m1 := fst (load empty_world) in
  let w1 := snd (load empty_world) in
  let m2 := fst (load w1) in
  let w2 := snd (load w1) in
  isCancelablePromise m1 (snd (construct m2 pending w2)) (fst (construct m2 pending w2)) = false /\
  isCancelablePromise m2 (snd (construct m2 pending w2)) (fst (construct m2 pending w2)) = true.
Proof.
  intros m1 w1 m2 w2. split.
  - apply (isCancelablePromise_marker_of_this_copy m1 w2). vm_compute. lia.
  - apply (isCancelablePromise_marker_of_this_copy m2 w2).
Defined.

(** C5 as stated fails: an instance created by an independently loaded
    copy of the library is not recognized by this copy. *)
Lemma isCancelablePromise_other_copy_counterexample :
  let '(this_copy, w1) := load empty_world in
  let '(other_copy, w2) := load w1 in
  let '(x, w3) := construct other_copy pending w2 in
  isCancelablePromise other_copy w3 x = true /\
  isCancelablePromise this_copy w3 x = false.
Proof. vm_compute. split; reflexivity. Qed.

End SharedFacts.

(** ** [tryCatch] *)

Section TryCatchFacts.

Import TryCatch.

Variable code : nat -> world -> completion value * world.

Lemma or_default_null a : or_default a VNull = nullish a VNull.
Proof. by destruct a. Qed.

(** C6: [tryCatch] calls the callback once, synchronously.  If the
    callback returns [r], the result is [{error: null, result: r}] and
    nothing is logged; if it throws [e], the result is
    [{error: e, result: config.defaultResult ?? null}] and [e] is logged
    with the console method of the configured severity (by default
    [error]), unless the severity is [ignore]. *)
Theorem tryCatch_spec (callback : value) (config : option TTryCatchCallbackConfig) (w : world) :
  let cfg := default empty_config config in
  let severity := default handling_error (exceptionHandlingType cfg) in
  (forall r w1,
      Call code callback w = (Return r, w1) ->
      tryCatch code callback config w = ({| error := VNull; result := r |}, w1)) /\
  (forall e w1,
      Call code callback w = (Throw e, w1) ->
      exists w2,
        tryCatch code callback config w =
          ({| error := e; result := nullish (defaultResult cfg) VNull |}, w2) /\
        heap w2 = heap w1 /\
        console w2 =
          console w1 ++
          match severity with
          | handling_error => [(console_error, e)]
          | handling_warn => [(console_warn, e)]
          | handling_log => [(console_log, e)]
          | handling_ignore => []
          end).
Proof.
  intros cfg severity. split.
  - intros r w1 Hcall. unfold tryCatch. by rewrite Hcall.
  - intros e w1 Hcall. unfold tryCatch. rewrite Hcall. fold cfg. fold severity.
    rewrite or_default_null. eexists. split; [reflexivity|].
    destruct severity; cbn; by rewrite ?app_nil_r.
Qed.

End TryCatchFacts.

(** The theorem at a callback that throws a string, with a default result
    and the severity [warn]. *)
Lemma tryCatch_spec_witness :
  let code := fun (_ : nat) (w : world) => (Throw (VString "boom"), w) in
  let w := snd (alloc (Object (FunctionObject 0) ∅) empty_world) in
  let config := Some {| TryCatch.defaultResult := VNumber 3;
                        TryCatch.exceptionHandlingType := Some handling_warn |} in
  exists w2,
    TryCatch.tryCatch code (VRef 0) config w =
      ({| TryCatch.error := VString "boom"; TryCatch.result := VNumber 3 |}, w2) /\
    heap w2 = heap w /\
    console w2 = [(console_warn, VString "boom")].
Proof.
  intros code w config.
  apply (tryCatch_spec code (VRef 0) config w). reflexivity.
Defined.

(** ** [tryCatchPromise] *)

Section TryCatchPromiseFacts.

Import TryCatchPromise.

Variable code : nat -> world -> completion value * world.
Variable m : exports.

Lemma logger_error t ic p e w : fst (logger t ic p e w) = e.
Proof.
  unfold logger. case_bool_decide; [done|].
  by destruct (_ && _).
Qed.

Lemma then_catch_promise p ok err w :
  kind_of w p = Some PromiseObject ->
  then_catch p ok err w = (Return (ThenCatch p ok err), w).
Proof. intros H. unfold then_catch. by rewrite H. Qed.

Lemma toCancelablePromise_spec v w :
  (isCancelablePromise m w v = true -> kind_of w v = Some PromiseObject) ->
  let r := toCancelablePromise m v w in
  isCancelablePromise m (snd r) (fst r) = true /\
  kind_of (snd r) (fst r) = Some PromiseObject.
Proof.
  intros Hv. unfold toCancelablePromise.
  destruct (isCancelablePromise m w v) eqn:E; [by auto|].
  destruct (isPromise w v);
    split; auto using construct_isCancelablePromise, construct_kind.
Qed.

(** C7: when the source is a thunk and its call returns [undefined],
    [tryCatchPromise] returns [Promise.reject(Error(...))], a promise
    rejected with a new [Error] that carries the usage message, and not a
    promise resolved with a record; nothing is logged. *)
Theorem tryCatchPromise_thunk_returns_undefined
    (source : value) (config : option TTryCatchCallbackPromiseConfig) (w w1 : world) :
  isCancelablePromise m w source = false ->
  Call code source w = (Return VUndefined, w1) ->
  exists e w2,
    tryCatchPromise code m source config w = (Return (PromiseReject e), w2) /\
    kind_of w2 e = Some (ErrorObject "Error" usage_message) /\
    console w2 = console w1.
Proof.
  intros Hm Hcall. unfold tryCatchPromise. rewrite Hm, Hcall. cbn.
  eexists _, _. split; [reflexivity|]. cbn. by rewrite lookup_insert_eq.
Qed.

(** C10: [tryCatchPromise] always returns a promise and never throws.  If
    the source does not carry the marker and calling it throws [e] (the
    thunk throws [e], or the source is not callable and [e] is the
    [TypeError] of the call), the promise returned is already resolved,
    with [{error: e, result: config.defaultResult ?? null, promise: null}]. *)
Theorem tryCatchPromise_never_throws
    (source : value) (config : option TTryCatchCallbackPromiseConfig) (w : world) :
  (exists p w', tryCatchPromise code m source config w = (Return p, w')) /\
  (forall e w1,
      isCancelablePromise m w source = false ->
      Call code source w = (Throw e, w1) ->
      exists w2,
        tryCatchPromise code m source config w =
          (Return (PromiseResolve
                     {| error := e;
                        result := nullish (defaultResult (default empty_config config)) VNull;
                        promise := VNull |}), w2)) /\
  (isCancelablePromise m w source = false ->
   (forall body, kind_of w source <> Some (FunctionObject body)) ->
   exists e w1,
     Call code source w = (Throw e, w1) /\
     kind_of w1 e = Some (ErrorObject "TypeError" "is not a function")).
Proof.
  split; [|split].
  - unfold tryCatchPromise.
    set (lg := logger _ _).
    assert (Hcatch : forall p0 e0 w0,
      exists p w', (let '(error, w') := lg p0 e0 w0 in
         (Return (PromiseResolve
            {| error := error;
               result := or_default (defaultResult (default empty_config config)) VNull;
               promise := p0 |}), w')) = (Return p, w')).
    { intros p0 e0 w0. destruct (lg p0 e0 w0). eauto. }
    assert (Hthen : forall p0 ok err w0,
      exists p w',
        match then_catch p0 ok err w0 with
        | (Throw _error, w1) =>
            let '(error, w') := lg p0 _error w1 in
            (Return (PromiseResolve
               {| error := error;
                  result := or_default (defaultResult (default empty_config config)) VNull;
                  promise := p0 |}), w')
        | returned => returned
        end = (Return p, w')).
    { intros p0 ok err w0. destruct (then_catch p0 ok err w0) as [[r|e0] w1]; [eauto|].
      apply Hcatch. }
    destruct (isCancelablePromise m w source); [apply Hthen|].
    destruct (Call code source w) as [[v|e0] w1]; [|apply Hcatch].
    destruct (strict_equal v VUndefined).
    + destruct (Error usage_message w1). eauto.
    + destruct (if isCancelablePromise m w1 v then _ else _) as [p0 w2].
      apply Hthen.
  - intros e w1 Hm Hcall. unfold tryCatchPromise. rewrite Hm, Hcall.
    rewrite or_default_null.
    destruct (logger _ _ VNull e w1) as [e' w2] eqn:El.
    pose proof (logger_error (default handling_error
                   (exceptionHandlingType (default empty_config config)))
                  (default true (ignoreCancel (default empty_config config)))
                  VNull e w1) as He.
    rewrite El in He; cbn in He; subst e'. eauto.
  - intros _ Hk. unfold Call.
    destruct (kind_of w source) as [[]|] eqn:E;
      try (eexists _, _; split; [reflexivity|]; cbn; by rewrite lookup_insert_eq).
    by destruct (Hk body).
Qed.

End TryCatchPromiseFacts.

(** The theorem at a thunk that returns nothing. *)
Lemma tryCatchPromise_thunk_returns_undefined_witness :
  let code := fun (_ : nat) (w : world) => (Return VUndefined, w) in
  let w := snd (alloc (Object (FunctionObject 0) ∅) empty_world) in
  exists e w2,
    TryCatchPromise.tryCatchPromise code (Exports 0) (VRef 0) None w =
      (Return (TryCatchPromise.PromiseReject e), w2) /\
    kind_of w2 e = Some (ErrorObject "Error" TryCatchPromise.usage_message) /\
    console w2 = console w.
Proof.
  intros code w.
  apply (tryCatchPromise_thunk_returns_undefined code (Exports 0) (VRef 0) None w w);
    reflexivity.
Defined.

(** The theorem at a thunk that throws a string, under the default
    configuration. *)
Lemma tryCatchPromise_never_throws_witness :
  let code := fun (_ : nat) (w : world) => (Throw (VString "boom"), w) in
  let w := snd (alloc (Object (FunctionObject 0) ∅) empty_world) in
  exists w2,
    TryCatchPromise.tryCatchPromise code (Exports 0) (VRef 0) None w =
      (Return (TryCatchPromise.PromiseResolve
                 {| TryCatchPromise.error := VString "boom";
                    TryCatchPromise.result := VNull;
                    TryCatchPromise.promise := VNull |}), w2).
Proof.
  intros code w.
  destruct (tryCatchPromise_never_throws code (Exports 0) (VRef 0) None w)
    as (_ & Hthrow & _).
  apply (Hthrow (VString "boom") w); reflexivity.
Defined.

Section TryCatchPromiseNormalization.

Import TryCatchPromise.

Variable code : nat -> world -> completion value * world.
Variable m : exports.

(** C4, as the code has it: for a source that is a Cancelable Future, or a
    thunk whose call returns a value other than [undefined],
    [tryCatchPromise] normalizes the source to a Cancelable Future (the
    source itself, or [toCancelablePromise] of what the thunk returned),
    awaits it with [then] and [catch], and the record it resolves with has
    that future in its [promise] field, whether the future is fulfilled or
    rejected. *)
Theorem tryCatchPromise_normalizes
    (source : value) (config : option TTryCatchCallbackPromiseConfig) (w : world) :
  let errorResult := nullish (defaultResult (default empty_config config)) VNull in
  (isCancelablePromise m w source = true ->
   kind_of w source = Some PromiseObject ->
   exists onfulfilled onrejected,
     tryCatchPromise code m source config w =
       (Return (ThenCatch source onfulfilled onrejected), w) /\
     records_of source errorResult onfulfilled onrejected) /\
  (forall v w1,
     isCancelablePromise m w source = false ->
     Call code source w = (Return v, w1) ->
     v <> VUndefined ->
     (isCancelablePromise m w1 v = true -> kind_of w1 v = Some PromiseObject) ->
     exists onfulfilled onrejected,
       let normalized := toCancelablePromise m v w1 in
       tryCatchPromise code m source config w =
         (Return (ThenCatch (fst normalized) onfulfilled onrejected), snd normalized) /\
       isCancelablePromise m (snd normalized) (fst normalized) = true /\
       records_of (fst normalized) errorResult onfulfilled onrejected).
Proof.
  intros errorResult. split.
  - intros Hm Hk. unfold tryCatchPromise. rewrite Hm.
    rewrite then_catch_promise by done.
    eexists _, _. split; [reflexivity|]. split; [done|].
    intros e w'. unfold errorResult. rewrite <- or_default_null.
    by destruct (logger _ _ source e w').
  - intros v w1 Hm Hcall Hv Hgen. unfold tryCatchPromise. rewrite Hm, Hcall.
    assert (strict_equal v VUndefined = false) as ->
      by (by apply bool_decide_eq_false).
    destruct (toCancelablePromise_spec m v w1 Hgen) as [Hn Hnk].
    assert ((if isCancelablePromise m w1 v then (v, w1)
             else toCancelablePromise m v w1) = toCancelablePromise m v w1) as ->.
    { unfold toCancelablePromise. by destruct (isCancelablePromise m w1 v). }
    destruct (toCancelablePromise m v w1) as [p w2] eqn:En. cbn [fst snd] in *.
    rewrite then_catch_promise by done.
    eexists _, _. split; [reflexivity|]. split; [done|]. split; [done|].
    intros e w'. unfold errorResult. rewrite <- or_default_null.
    by destruct (logger _ _ p e w').
Qed.

End TryCatchPromiseNormalization.

(** The theorem at a thunk that returns a native promise: the promise is
    wrapped in a new Cancelable Future, which the records carry. *)
Lemma tryCatchPromise_normalizes_witness :
  let code := fun (_ : nat) (w : world) => (Return (VRef 1), w) in
  let w0 := snd (alloc (Object (FunctionObject 0) ∅) empty_world) in
  let w := snd (alloc native_promise w0) in
  let m := Exports 0 in
  exists onfulfilled onrejected,
    TryCatchPromise.tryCatchPromise code m (VRef 0) None w =
      (Return (TryCatchPromise.ThenCatch (VRef 2) onfulfilled onrejected),
       snd (toCancelablePromise m (VRef 1) w)) /\
    isCancelablePromise m (snd (toCancelablePromise m (VRef 1) w)) (VRef 2) = true /\
    TryCatchPromise.records_of (VRef 2) VNull onfulfilled onrejected.
Proof.
  intros code w0 w m.
  destruct (tryCatchPromise_normalizes code m (VRef 0) None w) as [_ Hthunk].
  destruct (Hthunk (VRef 1) w) as (onfulfilled & onrejected & Hreturned & Hmarker & Hrecords).
  - reflexivity.
  - reflexivity.
  - discriminate.
  - vm_compute. discriminate.
  - exists onfulfilled, onrejected. exact (conj Hreturned (conj Hmarker Hrecords)).
Defined.

(** C4 as stated fails for a native promise passed as the source itself:
    it does not carry the marker, so it is called as a thunk, the call
    throws, and the record has [promise: null]. *)
Lemma tryCatchPromise_native_source_counterexample :
  let code := fun (_ : nat) (w : world) => (Return VUndefined, w) in
  let '(source, w) := alloc native_promise empty_world in
  isPromise w source = true /\
  fst (TryCatchPromise.tryCatchPromise code (Exports 0) source None w) =
    Return (TryCatchPromise.PromiseResolve
              {| TryCatchPromise.error := VRef 1;
                 TryCatchPromise.result := VNull;
                 TryCatchPromise.promise := VNull |}) /\
  kind_of (snd (TryCatchPromise.tryCatchPromise code (Exports 0) source None w)) (VRef 1)
    = Some (ErrorObject "TypeError" "is not a function").
Proof. vm_compute. repeat split; reflexivity. Qed.

(** ** The cancelable future: settlement and cancellation *)

Section ChainFacts.

Import Chain.

(** A step keeps every future there is, with its chain and its parent; a
    future that has settled keeps its status and its settlement. *)
Lemma step_keeps s o f fu :
  futures s !! f = Some fu ->
  exists fu',
    futures (step s o) !! f = Some fu' /\
    chain fu' = chain fu /\
    parent fu' = parent fu /\
    (NoDup (ownCancelCallbacks fu) -> NoDup (ownCancelCallbacks fu')) /\
    (status fu <> pending ->
     status fu' = status fu /\ settlement fu' = settlement fu).
Proof.
  intros Hf.
  assert (Hlt : f < length (futures s)) by (by eapply lookup_lt_Some).
  assert (Halter : forall (g : future -> future) f0,
    chain (g fu) = chain fu -> parent (g fu) = parent fu ->
    (NoDup (ownCancelCallbacks fu) -> NoDup (ownCancelCallbacks (g fu))) ->
    (status fu <> pending ->
     status (g fu) = status fu /\ settlement (g fu) = settlement fu) ->
    exists fu',
      alter g f0 (futures s) !! f = Some fu' /\
      chain fu' = chain fu /\ parent fu' = parent fu /\
      (NoDup (ownCancelCallbacks fu) -> NoDup (ownCancelCallbacks fu')) /\
      (status fu <> pending ->
       status fu' = status fu /\ settlement fu' = settlement fu)).
  { intros g f0 H1 H2 H3 H4. destruct (decide (f0 = f)) as [->|Hne].
    - exists (g fu). by rewrite list_lookup_alter_eq, Hf.
    - exists fu. by rewrite list_lookup_alter_ne. }
  destruct o as [|p|f0 v|f0 r|f0 r|f0 cb|f0 cb]; cbn.
  - exists fu. by rewrite lookup_app_l.
  - unfold derive. destruct (futures s !! p); cbn; exists fu;
      by rewrite ?lookup_app_l.
  - apply Halter; unfold settle_with; by case_bool_decide.
  - apply Halter; unfold settle_with; by case_bool_decide.
  - unfold cancel. destruct (futures s !! f0) as [fu0|]; [|by exists fu].
    case_bool_decide; [|by exists fu]. cbn.
    exists (cancel_member (chain fu0) r fu).
    rewrite list_lookup_fmap, Hf. split; [done|].
    unfold cancel_member, in_chain.
    destruct (bool_decide (chain fu = chain fu0)); cbn; [|done].
    case_bool_decide; cbn; repeat split; try done; constructor.
  - apply Halter; cbn; try done.
    intros Hnd. case_bool_decide as Hin; [done|].
    apply NoDup_app. repeat split; [done| |apply NoDup_singleton].
    intros x Hx ->%list_elem_of_singleton. done.
  - apply Halter; cbn; try done. apply NoDup_filter.
Qed.





(** Once a future has settled, no sequence of operations changes its
    status or its settlement. *)
Lemma run_keeps_settled ops s f fu :
  futures s !! f = Some fu -> status fu <> pending ->
  exists fu', futures (run ops s) !! f = Some fu' /\
              status fu' = status fu /\ settlement fu' = settlement fu.
Proof.
  revert s fu. induction ops as [|o ops IH]; intros s fu Hf Hst; [by exists fu|].
  cbn. destruct (step_keeps s o f fu Hf) as (fu1 & Hf1 & _ & _ & _ & Hkeep).
  destruct (Hkeep Hst) as [Hs1 Hv1].
  destruct (IH (step s o) fu1 Hf1) as (fu' & Hf' & Hs' & Hv'); [congruence|].
  exists fu'. split; [done|]. split; congruence.
Qed.

(** C2: the status of a future is monotonic.  A future is created
    [pending], by the constructor and by [then]/[catch]/[finally]; one
    operation leaves the status as it is or moves it from [pending] to one
    of [resolved], [rejected], [canceled]; and once the status is not
    [pending], no sequence of calls of [resolve], [reject], [cancel] (or
    of any other operation, on any future) changes it. *)
Theorem status_monotonic (s : state) :
  status_of (new s) (length (futures s)) = Some pending /\
  (forall p, is_Some (futures s !! p) ->
             status_of (derive p s) (length (futures s)) = Some pending) /\
  (forall f st o st',
      status_of s f = Some st -> status_of (step s o) f = Some st' ->
      st' = st \/
      (st = pending /\ (st' = resolved \/ st' = rejected \/ st' = canceled))) /\
  (forall f st ops,
      status_of s f = Some st -> st <> pending ->
      status_of (run ops s) f = Some st).
Proof.
  unfold status_of. repeat split.
  - cbn. by rewrite list_lookup_middle.
  - intros p [fp Hp]. unfold derive. rewrite Hp. cbn.
    by rewrite list_lookup_middle.
  - intros f st o st' Hst Hst'.
    destruct (futures s !! f) as [fu|] eqn:Hf; [|done].
    destruct (step_keeps s o f fu Hf) as (fu' & Hf' & _ & _ & _ & Hkeep).
    rewrite Hf' in Hst'. cbn in *. simplify_eq.
    destruct (decide (status fu = pending)) as [Hp|Hp].
    + destruct (status fu') eqn:E; rewrite Hp; eauto 6.
    + left. by apply Hkeep.
  - intros f st ops Hst Hne.
    destruct (futures s !! f) as [fu|] eqn:Hf; [|done]. cbn in Hst. simplify_eq.
    destruct (run_keeps_settled ops s f fu Hf Hne) as (fu' & -> & Hs & _).
    cbn. by rewrite Hs.
Qed.

End ChainFacts.

Section ChainCancellation.

Import Chain.








(** C3: a future canceled with reason [r] while pending has its
    underlying awaitable rejected with [r], so that a [catch] handler
    attached to it receives [r], and its status is [canceled]; whatever
    happens later, the status stays [canceled] (it never reads [rejected])
    and the handler still receives [r].  This includes a [cancel(r)] made
    synchronously by the callback given to the constructor. *)
Theorem cancel_rejects_with_reason (s : state) (r : value) :
  (forall f fu,
      futures s !! f = Some fu -> status fu = pending ->
      forall ops,
        let s' := run ops (cancel f r s) in
        status_of s' f = Some canceled /\
        settlement_of s' f = Some (Rejected r) /\
        catch_receives s' f = Some r) /\
  (forall script ops,
      let '(f, s') := construct (do_cancel r :: script) s in
      status_of (run ops s') f = Some canceled /\
      catch_receives (run ops s') f = Some r).
Proof.
  assert (Hmain : forall s0 f fu,
      futures s0 !! f = Some fu -> status fu = pending ->
      forall ops,
        let s' := run ops (cancel f r s0) in
        status_of s' f = Some canceled /\
        settlement_of s' f = Some (Rejected r) /\
        catch_receives s' f = Some r).
  { intros s0 f fu Hf Hp ops s'.
    assert (Hc : futures (cancel f r s0) !! f =
                 Some (Future canceled (Some (Rejected r)) [] (chain fu) (parent fu))).
    { unfold cancel. rewrite Hf, bool_decide_eq_true_2 by done. cbn.
      rewrite list_lookup_fmap, Hf. cbn. unfold cancel_member, in_chain.
      by rewrite !bool_decide_eq_true_2. }
    destruct (run_keeps_settled ops _ f _ Hc) as (fu' & Hf' & Hs & Hv); [done|].
    unfold catch_receives, settlement_of, status_of. fold s' in Hf'.
    rewrite Hf'. cbn in *. by rewrite Hs, Hv. }
  split; [apply Hmain|].
  intros script ops. unfold construct. cbn [fmap list_fmap control_op run foldl step].
  change (foldl step ?a ?l) with (run l a).
  assert (Hnew : futures (new s) !! length (futures s)
                 = Some (Future pending None [] (next_chain s) None)).
  { cbn. by rewrite list_lookup_middle. }
  destruct (Hmain (new s) _ _ Hnew eq_refl ((control_op (length (futures s)) <$> script) ++ ops))
    as (H1 & _ & H3).
  unfold run in *. rewrite foldl_app in H1, H3. done.
Qed.

End ChainCancellation.

(** The theorem at a future that was resolved: canceling it and rejecting
    it afterwards leave it [resolved]. *)
Lemma status_monotonic_witness :
  let s := Chain.run [Chain.New; Chain.Resolve 0 (VString "done")] Chain.init in
  Chain.status_of
    (Chain.run [Chain.Cancel 0 (VString "abort"); Chain.Reject 0 (VString "late")] s) 0
  = Some resolved.
Proof.
  intros s.
  destruct (status_monotonic s) as (_ & _ & _ & Hstable).
  apply Hstable; [reflexivity | discriminate].
Defined.



(** The theorem at a future canceled while pending and rejected later. *)
Lemma cancel_rejects_with_reason_witness :
  let s := Chain.run [Chain.New] Chain.init in
  let s' := Chain.run [Chain.Reject 0 (VString "late")]
                      (Chain.cancel 0 (VString "user-abort") s) in
  Chain.status_of s' 0 = Some canceled /\
  Chain.settlement_of s' 0 = Some (Chain.Rejected (VString "user-abort")) /\
  Chain.catch_receives s' 0 = Some (VString "user-abort").
Proof.
  intros s s'.
  destruct (cancel_rejects_with_reason s (VString "user-abort")) as [Hcancel _].
  apply (Hcancel 0 (Chain.Future pending None [] 0 None)); reflexivity.
Defined.

(** ** The group scheduler: results by original index *)

Section GroupFacts.

Import Group.

Variable sources : list source.
Variable config : TCancelablePromiseGroupConfig.

Local Abbreviation invariant := (invariant sources).
Local Abbreviation fill := (fill sources config).
Local Abbreviation finish := (finish sources).
Local Abbreviation on_settled := (on_settled sources config).

Lemma invariant_init : invariant (init sources).
Proof.
  unfold Group.invariant, init; cbn. rewrite length_replicate.
  repeat split; try done; try lia.
  by intros i ?%elem_of_nil.
Qed.

Lemma invariant_dispatch st :
  cursor st < length sources -> invariant st -> invariant (dispatch st).
Proof.
  intros Hlt (Hlen & Hcur & Hact & Hres & Hdone).
  unfold Group.invariant, dispatch; cbn. repeat split; try done.
  - intros i [Hi| ->%list_elem_of_singleton]%elem_of_app; [|lia].
    apply Hact in Hi. lia.
  - intros Hst i src Hi Hni Hsrc. apply Hres; try done.
    + destruct (decide (i = cursor st)) as [->|]; [|lia].
      destruct Hni. apply elem_of_app. right. by apply list_elem_of_singleton.
    + intros Hin. apply Hni, elem_of_app. by left.
  - by apply Hdone.
  - apply Hdone in H as (_ & ? & _). lia.
  - apply Hdone in H as (_ & ? & _). lia.
Qed.

Lemma fill_S k st :
  fill (S k) st =
  if (length (active st) <? limit config) && (cursor st <? length sources)
  then fill k (dispatch st)
  else st.
Proof. reflexivity. Qed.

Lemma fill_status k st : status (fill k st) = status st.
Proof.
  revert st. induction k as [|k IH]; intros st; [done|].
  rewrite fill_S. destruct (_ && _); [|done]. by rewrite IH.
Qed.

Lemma invariant_fill k st : invariant st -> invariant (fill k st).
Proof.
  revert st. induction k as [|k IH]; intros st Hinv; [done|].
  rewrite fill_S. destruct (_ && _) eqn:E; [|done].
  apply andb_true_iff in E as [_ E%Nat.ltb_lt].
  by apply IH, invariant_dispatch.
Qed.

(** The bound given to [fill] is enough: it stops only when the limit is
    reached or no source is left. *)
Lemma fill_saturates k st :
  length sources - cursor st <= k ->
  limit config <= length (active (fill k st)) \/
  length sources <= cursor (fill k st).
Proof.
  revert st. induction k as [|k IH]; intros st Hk.
  - right. cbn. lia.
  - rewrite fill_S. destruct (_ && _) eqn:E.
    + apply IH. cbn. lia.
    + apply andb_false_iff in E as [E%Nat.ltb_ge|E%Nat.ltb_ge]; auto.
Qed.

Lemma invariant_finish st :
  status st = group_pending -> invariant st -> invariant (finish st).
Proof.
  intros Hst Hinv. unfold Group.finish.
  destruct (cursor st =? length sources) eqn:E1; cbn; [|done].
  case_bool_decide as E2; [|done].
  destruct Hinv as (Hlen & Hcur & Hact & Hres & Hdone).
  apply Nat.eqb_eq in E1.
  unfold Group.invariant; cbn. repeat split; try done.
  - intros _. apply Hres. by rewrite Hst.
  - congruence.
Qed.

Lemma invariant_on_settled i st : invariant st -> invariant (on_settled i st).
Proof.
  intros Hinv. unfold Group.on_settled.
  destruct (status st) eqn:Hst; try done.
  destruct (sources !! i) as [src|] eqn:Hsrc; [|done].
  case_bool_decide as Hin; [|done].
  apply invariant_finish; [by rewrite fill_status|].
  apply invariant_fill.
  destruct Hinv as (Hlen & Hcur & Hact & Hres & Hdone).
  unfold Group.invariant; cbn. repeat split; try done.
  - by rewrite length_insert.
  - intros j [_ Hj]%list_elem_of_filter. by apply Hact.
  - intros _ j src' Hj Hnj Hsrc'.
    destruct (decide (j = i)) as [->|Hne].
    + rewrite list_lookup_insert_eq by lia. congruence.
    + rewrite list_lookup_insert_ne by done.
      apply Hres; try done; [by rewrite Hst|].
      intros Hjin. apply Hnj, list_elem_of_filter. done.
Qed.

Lemma invariant_cancel st : invariant st -> invariant (cancel st).
Proof.
  intros Hinv. unfold Group.cancel. destruct (status st) eqn:Hst; try done.
  destruct Hinv as (Hlen & Hcur & Hact & Hres & Hdone).
  unfold Group.invariant; cbn. repeat split; try done.
  by intros j ?%elem_of_nil.
Qed.

Lemma invariant_run events : invariant (run sources config events).
Proof.
  unfold run.
  assert (Hstart : invariant (groupAsCancelablePromise sources config)).
  { apply invariant_finish; [by rewrite fill_status|].
    apply invariant_fill, invariant_init. }
  revert Hstart. generalize (groupAsCancelablePromise sources config).
  induction events as [|e events IH]; intros st Hinv; [done|].
  cbn. apply IH. destruct e; cbn; auto using invariant_on_settled, invariant_cancel.
Qed.

Lemma unsettled_fill k st :
  invariant st -> unsettled sources (fill k st) = unsettled sources st.
Proof.
  revert st. induction k as [|k IH]; intros st Hinv; [done|].
  rewrite fill_S. destruct (_ && _) eqn:E; [|done].
  apply andb_true_iff in E as [_ E%Nat.ltb_lt].
  rewrite IH by (by apply invariant_dispatch).
  unfold unsettled, dispatch; cbn. rewrite length_app; cbn. lia.
Qed.

Lemma unsettled_finish st : unsettled sources (finish st) = unsettled sources st.
Proof.
  unfold Group.finish. destruct (_ && _); done.
Qed.

(** After the dispatch loop and the test for the end, a pending group with
    a limit of at least one has a member in flight. *)
Lemma finish_fill_pending st :
  1 <= limit config -> invariant st -> status st = group_pending ->
  let st' := finish (fill (length sources - cursor st) st) in
  (exists rs, status st' = group_resolved rs) \/
  (status st' = group_pending /\ active st' <> []).
Proof.
  intros Hlimit Hinv Hst st'.
  pose proof (fill_saturates (length sources - cursor st) st (le_n _)) as Hsat.
  pose proof (invariant_fill (length sources - cursor st) st Hinv) as Hinv'.
  pose proof (fill_status (length sources - cursor st) st) as Hst'.
  unfold st', Group.finish.
  destruct (cursor _ =? length sources) eqn:E1; cbn.
  - case_bool_decide as E2; cbn; [by eauto|].
    right. split; [congruence|done].
  - right. split; [congruence|].
    apply Nat.eqb_neq in E1. destruct Hinv' as (_ & Hcur & _).
    intros Hnil. rewrite Hnil in Hsat. cbn in Hsat. lia.
Qed.

Lemma can_resolve_from n st :
  1 <= limit config -> invariant st -> unsettled sources st <= n ->
  status st = group_pending -> active st <> [] ->
  exists events rs, status (foldl (react sources config) st events) = group_resolved rs.
Proof.
  intros Hlimit. revert st. induction n as [|n IH]; intros st Hinv Hn Hst Hact.
  - destruct (active st) as [|i l] eqn:Ea; [done|].
    unfold unsettled in Hn. rewrite Ea in Hn. cbn in Hn. lia.
  - destruct (active st) as [|i l] eqn:Ea; [done|].
    assert (Hin : i ∈ active st) by (rewrite Ea; apply list_elem_of_here).
    assert (Hlt : i < length sources).
    { destruct Hinv as (_ & Hcur & Hlt & _). apply Hlt in Hin. lia. }
    destruct (lookup_lt_is_Some_2 sources i Hlt) as [src Hsrc].
    set (st1 := State (cursor st) (filter (fun j => j <> i) (active st))
                      (<[i := settles_with src]> (results st)) (status st)
                      (hooks st ++ [afterEachCallback (settles_with src)])).
    assert (Hstep : on_settled i st =
                    finish (fill (length sources - cursor st1) st1)).
    { unfold Group.on_settled, st1. rewrite Hst, Hsrc.
      rewrite bool_decide_eq_true_2 by exact Hin. reflexivity. }
    assert (Hinv1 : invariant st1).
    { destruct Hinv as (Hlen & Hcur & Hact' & Hres & Hdone).
      unfold Group.invariant, st1; cbn. repeat split; try done.
      - by rewrite length_insert.
      - intros j [_ Hj]%list_elem_of_filter. by apply Hact'.
      - intros _ j src' Hj Hnj Hsrc'.
        destruct (decide (j = i)) as [->|Hne].
        + rewrite list_lookup_insert_eq by lia. congruence.
        + rewrite list_lookup_insert_ne by done.
          apply Hres; try done; [by rewrite Hst|].
          intros Hjin. apply Hnj, list_elem_of_filter. done.
      - congruence.
      - congruence.
      - congruence. }
    assert (Hless : unsettled sources st1 <= n).
    { unfold unsettled in *. unfold st1; cbn.
      assert (length (filter (fun j => j <> i) (active st)) < length (active st)).
      { apply (length_filter_lt _ _ i); [done|]. by intros ?. }
      lia. }
    destruct (finish_fill_pending st1 Hlimit Hinv1 Hst) as [[rs Hrs]|[Hp Ha]].
    + exists [Settled i], rs. cbn. by rewrite Hstep.
    + destruct (IH (on_settled i st)) as (events & rs & Hrs).
      * by apply invariant_on_settled.
      * rewrite Hstep, unsettled_finish, unsettled_fill; done.
      * by rewrite Hstep.
      * by rewrite Hstep.
      * exists (Settled i :: events), rs. done.
Qed.

(** The group does resolve: with a limit of at least one, there is an
    order of settlement of the members after which the group future has
    resolved. *)
Lemma groupAsCancelablePromise_can_resolve :
  1 <= limit config ->
  exists events rs, status (run sources config events) = group_resolved rs.
Proof.
  intros Hlimit. unfold run.
  destruct (finish_fill_pending (init sources) Hlimit invariant_init eq_refl)
    as [[rs Hrs]|[Hp Ha]].
  - exists [], rs. cbn in *. unfold groupAsCancelablePromise.
    by rewrite Nat.sub_0_r in Hrs.
  - assert (Heq : groupAsCancelablePromise sources config =
                  finish (fill (length sources - cursor (init sources)) (init sources))).
    { unfold groupAsCancelablePromise. cbn. by rewrite Nat.sub_0_r. }
    rewrite Heq.
    eapply (can_resolve_from _ _ Hlimit); [|reflexivity|done|done].
    apply invariant_finish; [by rewrite fill_status|].
    apply invariant_fill, invariant_init.
Qed.

(** C8: whatever the sources and the configuration, and in whatever order
    the members settle (with a cancellation at any moment), when the group
    future resolves, entry [i] of the array it resolves with is the
    settlement result of [sources[i]], for every [i]. *)
Theorem groupAsCancelablePromise_positional (events : list event) (rs : list value) :
  status (run sources config events) = group_resolved rs ->
  rs = settles_with <$> sources /\
  forall i src, sources !! i = Some src -> rs !! i = Some (settles_with src).
Proof.
  intros Hrs.
  destruct (invariant_run events) as (Hlen & Hcur & Hact & Hres & Hdone).
  destruct (Hdone rs Hrs) as (-> & Hall & Hnone).
  assert (Hpos : forall i src, sources !! i = Some src ->
            results (run sources config events) !! i = Some (settles_with src)).
  { intros i src Hsrc. apply Hres; try done.
    - by rewrite Hrs.
    - rewrite Hall. by eapply lookup_lt_Some.
    - rewrite Hnone. apply not_elem_of_nil. }
  split; [|done].
  apply list_eq. intros i. rewrite list_lookup_fmap.
  destruct (sources !! i) as [src|] eqn:Hsrc; cbn.
  - by apply Hpos.
  - apply lookup_ge_None. rewrite Hlen. by apply lookup_ge_None.
Qed.

End GroupFacts.

(** The theorem at three sources and at most two members in flight, the
    second settling first, then the third, then the first. *)
Lemma groupAsCancelablePromise_positional_witness :
  let sources := [Group.Source true (VString "a"); Group.Source true (VString "b");
                  Group.Source true (VString "c")] in
  let config := {| Group.maxConcurrent := Some 2; Group.executeInOrder := None |} in
  let events := [Group.Settled 1; Group.Settled 2; Group.Settled 0] in
  Group.status (Group.run sources config events)
    = Group.group_resolved [VString "a"; VString "b"; VString "c"] /\
  [VString "a"; VString "b"; VString "c"] = Group.settles_with <$> sources.
Proof.
  intros sources config events.
  split; [reflexivity|].
  apply (groupAsCancelablePromise_positional sources config events). reflexivity.
Defined.

(** ** More on [tryCatch] and [tryCatchPromise]: what is logged, what is
       returned, and when *)

Section Logging.

Import TryCatchPromise.

Lemma console_at_heap t e w : heap (console_at t e w) = heap w.
Proof. by destruct t. Qed.

Lemma console_at_console t e w :
  console (console_at t e w) =
  console w ++
  match t with
  | handling_error => [(console_error, e)]
  | handling_warn => [(console_warn, e)]
  | handling_log => [(console_log, e)]
  | handling_ignore => []
  end.
Proof. destruct t; cbn; by rewrite ?app_nil_r. Qed.

(** The world [logger] leaves: a cancellation that is to be ignored is not
    logged, anything else is, by the method of the severity. *)
Lemma logger_world t ic p e w :
  snd (logger t ic p e w) =
  if strict_equal (optional_get w p (KString "status")) (VString "canceled") && ic
  then w
  else console_at t e w.
Proof.
  unfold logger. case_bool_decide as Ht.
  - subst t. by destruct (_ && _).
  - by destruct (_ && _).
Qed.

Lemma then_catch_not_promise p ok err w :
  kind_of w p <> Some PromiseObject ->
  then_catch p ok err w =
  (Throw (fst (TypeError "promise.then is not a function" w)),
   snd (TypeError "promise.then is not a function" w)).
Proof.
  intros Hk. unfold then_catch.
  destruct (kind_of w p) as [[]|]; try done.
Qed.

End Logging.

Section TryCatchPromiseCases.

Import TryCatchPromise.

Variable code : nat -> world -> completion value * world.
Variable m : exports.

(** When [tryCatchPromise] awaits a promise, the handlers it passes are
    the two closures of the source, over that promise. *)
Lemma tryCatchPromise_awaits_inv source config w p ok err w1 :
  tryCatchPromise code m source config w = (Return (ThenCatch p ok err), w1) ->
  let cfg := default empty_config config in
  ok = (fun result => {| error := VNull; result := result; promise := p |}) /\
  err = (fun error w =>
           let '(_, w') :=
             logger (default handling_error (exceptionHandlingType cfg))
                    (default true (ignoreCancel cfg)) p error w in
           ({| error := error;
               result := or_default (defaultResult cfg) VNull;
               promise := p |}, w')).
Proof.
  intros Heq cfg. unfold tryCatchPromise in Heq. fold cfg in Heq.
  assert (Hthen : forall p0 w0,
    match then_catch p0
            (fun result => {| error := VNull; result := result; promise := p0 |})
            (fun error w =>
               let '(_, w') :=
                 logger (default handling_error (exceptionHandlingType cfg))
                        (default true (ignoreCancel cfg)) p0 error w in
               ({| error := error;
                   result := or_default (defaultResult cfg) VNull;
                   promise := p0 |}, w')) w0 with
    | (Throw _error, w3) =>
        let '(error, w') :=
          logger (default handling_error (exceptionHandlingType cfg))
                 (default true (ignoreCancel cfg)) p0 _error w3 in
        (Return (PromiseResolve
                   {| error := error;
                      result := or_default (defaultResult cfg) VNull;
                      promise := p0 |}), w')
    | returned => returned
    end = (Return (ThenCatch p ok err), w1) ->
    ok = (fun result => {| error := VNull; result := result; promise := p |}) /\
    err = (fun error w =>
             let '(_, w') :=
               logger (default handling_error (exceptionHandlingType cfg))
                      (default true (ignoreCancel cfg)) p error w in
             ({| error := error;
                 result := or_default (defaultResult cfg) VNull;
                 promise := p |}, w'))).
  { intros p0 w0.
    destruct (decide (kind_of w0 p0 = Some PromiseObject)) as [Hk|Hk].
    - rewrite then_catch_promise by done. by intros [= <- <- <- _].
    - rewrite then_catch_not_promise by done. cbn.
      destruct (logger _ _ _ _ _). discriminate. }
  revert Heq.
  destruct (isCancelablePromise m w source); [exact (Hthen source w)|].
  destruct (Call code source w) as [[v|e] w0].
  - destruct (strict_equal v VUndefined); [discriminate|].
    destruct (if isCancelablePromise m w0 v then _ else _) as [p0 w2].
    exact (Hthen p0 w2).
  - destruct (logger _ _ _ _ _). discriminate.
Qed.

End TryCatchPromiseCases.

Section TryCatchBehaviour.

Import TryCatch.

Variable code : nat -> world -> completion value * world.

(** The [error] field of the result of [tryCatch] is [null] exactly when
    the callback returned or threw [null]: a [null] error alone does not
    tell success from a callback that throws [null]. *)
Theorem tryCatch_error_null_iff
    (callback : value) (config : option TTryCatchCallbackConfig) (w : world) :
  error (fst (tryCatch code callback config w)) = VNull <->
  (exists r, fst (Call code callback w) = Return r) \/
  fst (Call code callback w) = Throw VNull.
Proof.
  unfold tryCatch. destruct (Call code callback w) as [[r|e] w1]; cbn.
  - split; [eauto|done].
  - split.
    + intros ->. by right.
    + intros [[r [=]]|[= ->]]. done.
Qed.

(** A callback that is not a function: the call throws a [TypeError],
    which [tryCatch] catches like any other throw; the error returned is
    that [TypeError], the result is the default result, and the error is
    logged once, by the method of the severity. *)
Theorem tryCatch_not_callable
    (callback : value) (config : option TTryCatchCallbackConfig) (w : world) :
  (forall body, kind_of w callback <> Some (FunctionObject body)) ->
  let cfg := default empty_config config in
  exists e w2,
    tryCatch code callback config w =
      ({| error := e; result := nullish (defaultResult cfg) VNull |}, w2) /\
    kind_of w2 e = Some (ErrorObject "TypeError" "is not a function") /\
    console w2 =
      console w ++
      match default handling_error (exceptionHandlingType cfg) with
      | handling_error => [(console_error, e)]
      | handling_warn => [(console_warn, e)]
      | handling_log => [(console_log, e)]
      | handling_ignore => []
      end.
Proof.
  intros Hk cfg.
  assert (Hcall : Call code callback w =
                  (Throw (fst (TypeError "is not a function" w)),
                   snd (TypeError "is not a function" w))).
  { unfold Call. destruct (kind_of w callback) as [[]|]; try done.
    by destruct (Hk body). }
  unfold tryCatch. rewrite Hcall. fold cfg.
  rewrite or_default_null. eexists _, _. split; [reflexivity|].
  destruct (default handling_error (exceptionHandlingType cfg));
    case_bool_decide; try done; cbn;
    rewrite ?app_nil_r, lookup_insert_eq; done.
Qed.

End TryCatchBehaviour.

(** The theorem at a callback that throws [null]. *)
Lemma tryCatch_error_null_iff_witness :
  let code := fun (_ : nat) (w : world) => (Throw VNull, w) in
  let w := snd (alloc (Object (FunctionObject 0) ∅) empty_world) in
  TryCatch.error (fst (TryCatch.tryCatch code (VRef 0) None w)) = VNull.
Proof.
  intros code w.
  apply (tryCatch_error_null_iff code (VRef 0) None w). right. reflexivity.
Defined.

(** The theorem at a number given as the callback. *)
Lemma tryCatch_not_callable_witness :
  exists e w2,
    TryCatch.tryCatch (fun _ w => (Return VNull, w)) (VNumber 5) None empty_world =
      ({| TryCatch.error := e; TryCatch.result := VNull |}, w2) /\
    kind_of w2 e = Some (ErrorObject "TypeError" "is not a function") /\
    console w2 = [(console_error, e)].
Proof.
  apply (tryCatch_not_callable (fun _ w => (Return VNull, w)) (VNumber 5) None empty_world).
  intros body. discriminate.
Defined.

Section TryCatchPromiseBehaviour.

Import TryCatchPromise.

Variable code : nat -> world -> completion value * world.
Variable m : exports.

(** When the promise that [tryCatchPromise] awaits rejects with [e], the
    handler returns the record with [e], the default result and that
    promise, leaves the heap as it is, and logs [e] by the method of the
    severity, unless the severity is [ignore], or the status of the
    promise reads [canceled] at that time and [ignoreCancel] (by default
    [true]) is set. *)
Theorem tryCatchPromise_rejection_logging
    (source : value) (config : option TTryCatchCallbackPromiseConfig) (w : world)
    (p : value) (ok : value -> TTryCatchPromiseRecord)
    (err : value -> world -> TTryCatchPromiseRecord * world) (w1 : world) :
  tryCatchPromise code m source config w = (Return (ThenCatch p ok err), w1) ->
  forall (e : value) (w' : world),
    let cfg := default empty_config config in
    let canceled_now :=
      strict_equal (optional_get w' p (KString "status")) (VString "canceled") in
    fst (err e w') =
      {| error := e; result := nullish (defaultResult cfg) VNull; promise := p |} /\
    heap (snd (err e w')) = heap w' /\
    console (snd (err e w')) =
      console w' ++
      if canceled_now && default true (ignoreCancel cfg) then []
      else match default handling_error (exceptionHandlingType cfg) with
           | handling_error => [(console_error, e)]
           | handling_warn => [(console_warn, e)]
           | handling_log => [(console_log, e)]
           | handling_ignore => []
           end.
Proof.
  intros Heq e w' cfg canceled_now.
  destruct (tryCatchPromise_awaits_inv code m source config w p ok err w1 Heq)
    as [_ ->]. fold cfg.
  pose proof (logger_world (default handling_error (exceptionHandlingType cfg))
                (default true (ignoreCancel cfg)) p e w') as Hw.
  destruct (logger _ _ p e w') as [e' w2]. cbn [fst snd] in *. subst w2.
  rewrite or_default_null. split; [done|]. fold canceled_now.
  destruct (canceled_now && _).
  - by rewrite app_nil_r.
  - by rewrite console_at_heap, console_at_console.
Qed.

(** A throw of the call of the source is logged whatever [ignoreCancel]
    says: no promise exists yet whose status could read [canceled].  The
    thrown value is logged once, by the method of the severity, unless the
    severity is [ignore]; the heap is left as the call left it. *)
Theorem tryCatchPromise_throw_is_logged
    (source : value) (config : option TTryCatchCallbackPromiseConfig)
    (w : world) (e : value) (w1 : world) :
  isCancelablePromise m w source = false ->
  Call code source w = (Throw e, w1) ->
  let cfg := default empty_config config in
  let w2 := snd (tryCatchPromise code m source config w) in
  heap w2 = heap w1 /\
  console w2 =
    console w1 ++
    match default handling_error (exceptionHandlingType cfg) with
    | handling_error => [(console_error, e)]
    | handling_warn => [(console_warn, e)]
    | handling_log => [(console_log, e)]
    | handling_ignore => []
    end.
Proof.
  intros Hm Hcall cfg w2. unfold w2, tryCatchPromise. rewrite Hm, Hcall. fold cfg.
  pose proof (logger_world (default handling_error (exceptionHandlingType cfg))
                (default true (ignoreCancel cfg)) VNull e w1) as Hw.
  unfold optional_get, strict_equal in Hw.
  rewrite bool_decide_eq_false_2 in Hw by discriminate. cbn [andb] in Hw.
  destruct (logger _ _ VNull e w1) as [e' w3]. cbn [fst snd] in *. subst w3.
  by rewrite console_at_heap, console_at_console.
Qed.

(** The promise that [tryCatchPromise] returns is a rejected one in one
    case only: the source does not carry the marker and its call returns
    [undefined]. *)
Theorem tryCatchPromise_rejects_iff
    (source : value) (config : option TTryCatchCallbackPromiseConfig) (w : world) :
  (exists e w2, tryCatchPromise code m source config w = (Return (PromiseReject e), w2)) <->
  isCancelablePromise m w source = false /\
  exists w1, Call code source w = (Return VUndefined, w1).
Proof.
  assert (Hthen : forall p0 ok0 err0 w0 (lg : value -> world -> value * world) d e w2,
    match then_catch p0 ok0 err0 w0 with
    | (Throw _error, w3) =>
        let '(error, w') := lg _error w3 in
        (Return (PromiseResolve {| error := error; result := d; promise := p0 |}), w')
    | returned => returned
    end <> (Return (PromiseReject e), w2)).
  { intros p0 ok0 err0 w0 lg d e w2. unfold then_catch.
    destruct (kind_of w0 p0) as [[]|]; cbn; try destruct (lg _ _); discriminate. }
  split.
  - intros (e & w2 & Heq). unfold tryCatchPromise in Heq.
    destruct (isCancelablePromise m w source); [by apply Hthen in Heq|].
    split; [done|].
    destruct (Call code source w) as [[v|e0] w1].
    + destruct (strict_equal v VUndefined) eqn:Ev.
      * apply bool_decide_eq_true in Ev as ->. eauto.
      * destruct (if isCancelablePromise m w1 v then _ else _) as [p0 w3].
        by apply Hthen in Heq.
    + destruct (logger _ _ _ _ _). discriminate.
  - intros (Hm & w1 & Hcall). unfold tryCatchPromise. rewrite Hm, Hcall. cbn.
    eauto.
Qed.

(** A thunk that returns a Cancelable Future: the future is awaited as it
    is, nothing is allocated or logged after the call of the thunk, and
    the records carry that very future. *)
Theorem tryCatchPromise_thunk_returns_future
    (source : value) (config : option TTryCatchCallbackPromiseConfig)
    (w : world) (v : value) (w1 : world) :
  isCancelablePromise m w source = false ->
  Call code source w = (Return v, w1) ->
  isCancelablePromise m w1 v = true ->
  kind_of w1 v = Some PromiseObject ->
  exists ok err,
    tryCatchPromise code m source config w = (Return (ThenCatch v ok err), w1) /\
    records_of v (nullish (defaultResult (default empty_config config)) VNull) ok err.
Proof.
  intros Hm Hcall Hv Hk. unfold tryCatchPromise. rewrite Hm, Hcall, Hv.
  assert (strict_equal v VUndefined = false) as ->.
  { apply bool_decide_eq_false. intros ->. done. }
  rewrite then_catch_promise by done.
  eexists _, _. split; [reflexivity|]. split; [done|].
  intros e w'. rewrite <- or_default_null. by destruct (logger _ _ v e w').
Qed.

(** When the promise returned is an already resolved one, the result of
    its record is the default result, and one of three things happened.
    The source does not carry the marker and its call threw: the record
    has the thrown value as error and [promise: null].  Or the source
    carries the marker but is not a promise: the record has the source as
    [promise] and, as error, the [TypeError] of the call of [then] on it.
    Or the thunk returned a value that carries the marker but is not a
    promise: the record has that value as [promise] and, as error, the
    [TypeError] of the call of [then] on it. *)
Theorem tryCatchPromise_resolved_record
    (source : value) (config : option TTryCatchCallbackPromiseConfig)
    (w : world) (r : TTryCatchPromiseRecord) (w2 : world) :
  tryCatchPromise code m source config w = (Return (PromiseResolve r), w2) ->
  result r = nullish (defaultResult (default empty_config config)) VNull /\
  ((isCancelablePromise m w source = false /\
    promise r = VNull /\
    exists w1, Call code source w = (Throw (error r), w1)) \/
   (isCancelablePromise m w source = true /\
    promise r = source /\
    kind_of w source <> Some PromiseObject /\
    error r = fst (TypeError "promise.then is not a function" w) /\
    kind_of w2 (error r) =
      Some (ErrorObject "TypeError" "promise.then is not a function")) \/
   (isCancelablePromise m w source = false /\
    exists v w1,
      Call code source w = (Return v, w1) /\
      isCancelablePromise m w1 v = true /\
      promise r = v /\
      kind_of w1 v <> Some PromiseObject /\
      error r = fst (TypeError "promise.then is not a function" w1) /\
      kind_of w2 (error r) =
        Some (ErrorObject "TypeError" "promise.then is not a function"))).
Proof.
  intros Heq. unfold tryCatchPromise in Heq.
  set (cfg := default empty_config config) in *.
  set (lg := logger _ _) in *.
  assert (Hlg : forall p0 e0 w0, fst (lg p0 e0 w0) = e0 /\
                                 heap (snd (lg p0 e0 w0)) = heap w0).
  { intros p0 e0 w0. unfold lg. rewrite logger_error, logger_world.
    split; [done|]. destruct (_ && _); [done|apply console_at_heap]. }
  assert (Hthen : forall p0 ok0 err0 w0,
    match then_catch p0 ok0 err0 w0 with
    | (Throw _error, w3) =>
        let '(error, w') := lg p0 _error w3 in
        (Return (PromiseResolve
                   {| error := error;
                      result := or_default (defaultResult cfg) VNull;
                      promise := p0 |}), w')
    | returned => returned
    end = (Return (PromiseResolve r), w2) ->
    result r = nullish (defaultResult cfg) VNull /\
    promise r = p0 /\
    kind_of w0 p0 <> Some PromiseObject /\
    error r = fst (TypeError "promise.then is not a function" w0) /\
    kind_of w2 (error r) =
      Some (ErrorObject "TypeError" "promise.then is not a function")).
  { intros p0 ok0 err0 w0.
    destruct (decide (kind_of w0 p0 = Some PromiseObject)) as [Hk|Hk].
    - rewrite then_catch_promise by done. discriminate.
    - rewrite then_catch_not_promise by done. cbn.
      destruct (Hlg p0 (VRef (fresh (dom (heap w0))))
                    (World (next_symbol w0)
                       (<[fresh (dom (heap w0)) :=
                            Object (ErrorObject "TypeError" "promise.then is not a function") ∅]>
                          (heap w0))
                       (console w0))) as [He Hh].
      destruct (lg p0 _ _) as [e' w3]. cbn [fst snd] in *. subst e'.
      intros [= <- <-]. cbn. rewrite or_default_null.
      repeat split; try done.
      rewrite Hh. cbn. by rewrite lookup_insert_eq. }
  destruct (isCancelablePromise m w source) eqn:Hm.
  - destruct (Hthen source _ _ w Heq) as (Hr & Hp & Hk & He & Hke).
    split; [done|]. right; left. done.
  - destruct (Call code source w) as [[v|e0] w1] eqn:Hcall.
    + destruct (strict_equal v VUndefined); [discriminate|].
      destruct (isCancelablePromise m w1 v) eqn:Hv.
      * destruct (Hthen v _ _ w1 Heq) as (Hr & Hp & Hk & He & Hke).
        split; [done|]. right; right. split; [done|]. exists v, w1. done.
      * exfalso.
        assert (Hn : kind_of (snd (toCancelablePromise m v w1))
                             (fst (toCancelablePromise m v w1)) = Some PromiseObject).
        { apply toCancelablePromise_spec. congruence. }
        destruct (toCancelablePromise m v w1) as [p0 w3]. cbn [fst snd] in Hn.
        destruct (Hthen p0 _ _ w3 Heq) as (_ & _ & Hk & _). done.
    + destruct (Hlg VNull e0 w1) as [He _].
      destruct (lg VNull e0 w1) as [e' w3]. cbn [fst snd] in He. subst e'.
      injection Heq as <- <-. cbn. rewrite or_default_null. split; [done|].
      left. eauto.
Qed.

End TryCatchPromiseBehaviour.

(** The theorem at a Cancelable Future given as the source, under the
    default configuration: a rejection while the status reads [canceled]
    is not logged, a rejection while it reads [pending] is. *)
Lemma tryCatchPromise_rejection_logging_witness :
  let m := Exports 0 in
  let code := fun (_ : nat) (w : world) => (Return VUndefined, w) in
  let w := snd (construct m pending empty_world) in
  let w' := snd (construct m canceled empty_world) in
  exists ok err,
    TryCatchPromise.tryCatchPromise code m (VRef 0) None w =
      (Return (TryCatchPromise.ThenCatch (VRef 0) ok err), w) /\
    console (snd (err (VString "abort") w')) = [] /\
    console (snd (err (VString "failed") w)) = [(console_error, VString "failed")].
Proof.
  intros m code w w'. eexists _, _. split; [reflexivity|]. split.
  - destruct (tryCatchPromise_rejection_logging code m (VRef 0) None w
                (VRef 0) _ _ w eq_refl (VString "abort") w') as (_ & _ & Hlog).
    exact Hlog.
  - destruct (tryCatchPromise_rejection_logging code m (VRef 0) None w
                (VRef 0) _ _ w eq_refl (VString "failed") w) as (_ & _ & Hlog).
    exact Hlog.
Defined.

(** The theorem at a thunk that throws, with [ignoreCancel] set and the
    severity [warn]. *)
Lemma tryCatchPromise_throw_is_logged_witness :
  let code := fun (_ : nat) (w : world) => (Throw (VString "boom"), w) in
  let w := snd (alloc (Object (FunctionObject 0) ∅) empty_world) in
  let config := Some {| TryCatchPromise.defaultResult := VUndefined;
                        TryCatchPromise.exceptionHandlingType := Some handling_warn;
                        TryCatchPromise.ignoreCancel := Some true |} in
  let w2 := snd (TryCatchPromise.tryCatchPromise code (Exports 0) (VRef 0) config w) in
  heap w2 = heap w /\ console w2 = [(console_warn, VString "boom")].
Proof.
  intros code w config w2.
  apply (tryCatchPromise_throw_is_logged code (Exports 0) (VRef 0) config w
           (VString "boom") w); reflexivity.
Defined.

(** The theorem at a thunk that returns nothing. *)
Lemma tryCatchPromise_rejects_iff_witness :
  let code := fun (_ : nat) (w : world) => (Return VUndefined, w) in
  let w := snd (alloc (Object (FunctionObject 0) ∅) empty_world) in
  exists e w2,
    TryCatchPromise.tryCatchPromise code (Exports 0) (VRef 0) None w =
      (Return (TryCatchPromise.PromiseReject e), w2).
Proof.
  intros code w.
  apply (tryCatchPromise_rejects_iff code (Exports 0) (VRef 0) None w).
  split; [reflexivity|]. exists w. reflexivity.
Defined.

(** The theorem at a thunk that returns a pending Cancelable Future. *)
Lemma tryCatchPromise_thunk_returns_future_witness :
  let m := Exports 0 in
  let code := fun (_ : nat) (w : world) => (Return (VRef 1), w) in
  let w := snd (construct m pending
                  (snd (alloc (Object (FunctionObject 0) ∅) empty_world))) in
  exists ok err,
    TryCatchPromise.tryCatchPromise code m (VRef 0) None w =
      (Return (TryCatchPromise.ThenCatch (VRef 1) ok err), w) /\
    TryCatchPromise.records_of (VRef 1) VNull ok err.
Proof.
  intros m code w.
  apply (tryCatchPromise_thunk_returns_future code m (VRef 0) None w (VRef 1) w);
    reflexivity.
Defined.

(** The theorem at an object that carries the marker of this copy but
    is no promise, given as the source: the record has the object as
    [promise] and the [TypeError] as error. *)
Lemma tryCatchPromise_resolved_record_witness :
  let code := fun (_ : nat) (w : world) => (Return VUndefined, w) in
  let m := Exports 0 in
  let w := snd (alloc (Object OrdinaryObject {[KSymbol 0 := VBoolean true]}) empty_world) in
  let returned := TryCatchPromise.tryCatchPromise code m (VRef 0) None w in
  fst returned =
    Return (TryCatchPromise.PromiseResolve
              {| TryCatchPromise.error := VRef 1;
                 TryCatchPromise.result := VNull;
                 TryCatchPromise.promise := VRef 0 |}) /\
  kind_of (snd returned) (VRef 1) =
    Some (ErrorObject "TypeError" "promise.then is not a function").
Proof.
  intros code m w returned. split; [reflexivity|].
  destruct (tryCatchPromise_resolved_record code m (VRef 0) None w
              {| TryCatchPromise.error := VRef 1;
                 TryCatchPromise.result := VNull;
                 TryCatchPromise.promise := VRef 0 |}
              (snd returned) eq_refl)
    as (_ & [(Hunmarked & _)|[(_ & _ & _ & _ & Hkind)|(Hunmarked & _)]]).
  - discriminate Hunmarked.
  - exact Hkind.
  - discriminate Hunmarked.
Defined.

Section TryCatchPromiseAndTryCatch.

Import TryCatchPromise.

Variable code : nat -> world -> completion value * world.
Variable m : exports.

(** On a source without the marker whose call throws, [tryCatchPromise]
    does what [tryCatch] does with the same default result and severity:
    the same error, the same result, the same world (so the same log),
    with [promise: null] added; [ignoreCancel] plays no part. *)
Theorem tryCatchPromise_throw_as_tryCatch
    (source : value) (config : option TTryCatchCallbackPromiseConfig)
    (w : world) (e : value) (w1 : world) :
  isCancelablePromise m w source = false ->
  Call code source w = (Throw e, w1) ->
  let sync_config :=
    (fun c => {| TryCatch.defaultResult := defaultResult c;
                 TryCatch.exceptionHandlingType := exceptionHandlingType c |})
      <$> config in
  let sync := TryCatch.tryCatch code source sync_config w in
  tryCatchPromise code m source config w =
    (Return (PromiseResolve
               {| error := TryCatch.error (fst sync);
                  result := TryCatch.result (fst sync);
                  promise := VNull |}),
     snd sync).
Proof.
  intros Hm Hcall sync_config sync.
  unfold sync, sync_config, tryCatchPromise, TryCatch.tryCatch.
  rewrite Hm, Hcall.
  assert (Hlog : forall t ic,
    logger t ic VNull e w1 =
    (e, if bool_decide (t <> handling_ignore) then console_at t e w1 else w1)).
  { intros t ic. unfold logger, optional_get, strict_equal.
    rewrite (bool_decide_eq_false_2 (VUndefined = VString "canceled")) by discriminate.
    cbn [andb]. destruct t; reflexivity. }
  destruct config as [[d t ic]|]; cbn; by rewrite Hlog.
Qed.

End TryCatchPromiseAndTryCatch.

(** The theorem at a thunk that throws, with a default result and the
    severity [log]. *)
Lemma tryCatchPromise_throw_as_tryCatch_witness :
  let code := fun (_ : nat) (w : world) => (Throw (VString "boom"), w) in
  let w := snd (alloc (Object (FunctionObject 0) ∅) empty_world) in
  let config := {| TryCatchPromise.defaultResult := VNumber 3;
                   TryCatchPromise.exceptionHandlingType := Some handling_log;
                   TryCatchPromise.ignoreCancel := None |} in
  let sync := TryCatch.tryCatch code (VRef 0)
                (Some {| TryCatch.defaultResult := VNumber 3;
                         TryCatch.exceptionHandlingType := Some handling_log |}) w in
  TryCatchPromise.tryCatchPromise code (Exports 0) (VRef 0) (Some config) w =
    (Return (TryCatchPromise.PromiseResolve
               {| TryCatchPromise.error := TryCatch.error (fst sync);
                  TryCatchPromise.result := TryCatch.result (fst sync);
                  TryCatchPromise.promise := VNull |}),
     snd sync).
Proof.
  intros code w config sync.
  apply (tryCatchPromise_throw_as_tryCatch code (Exports 0) (VRef 0) (Some config) w
           (VString "boom") w); reflexivity.
Defined.
